(** * State definitions and structured schemas of the research-scoping workflow

    A shallow embedding of [state_scope.py]: the [AgentState] aggregate with
    the reducer attached to each of its fields, and the two structured-output
    schemas [ClarifyWithUser] and [ResearchQuestion]. *)

From Stdlib Require Import ZArith.
From stdpp Require Import base option list strings gmap.

Open Scope string_scope.
Open Scope list_scope.

(** ** Results of fallible operations *)

(** What a failed validation reports: a problem with one field of a decision
    object, or a message identity that is missing or empty. *)
Inductive ValidationIssue :=
  | Missing (field : string)
  | StringType (field : string)
  | BoolParsing (field : string)
  | InvalidIdentity.

Inductive Error :=
  | ValidationError (issues : list ValidationIssue).

Inductive result (A : Type) :=
  | Ok (a : A)
  | Err (e : Error).
Arguments Ok {A} a.
Arguments Err {A} e.

Definition issues_of {A} (r : result A) : list ValidationIssue :=
  match r with Ok _ => [] | Err (ValidationError l) => l end.

#[global] Instance result_ret : MRet result := λ A a, Ok a.
#[global] Instance result_bind : MBind result := λ A B f r,
  match r with Ok a => f a | Err e => Err e end.

(** ** Messages *)

Inductive Role := user | assistant | system | tool.

Inductive Content :=
  | Text (s : string)
  | Structured (payload : list (string * string)).

(** [BaseMessage] is imported from [langchain_core.messages]; the fields kept
    here are the ones of the data model: identity, role and content.  An
    identity can be missing ([None]) or empty ([Some ""]). *)
Record Message := mkMessage {
  identity : option string;
  role : Role;
  content : Content
}.

#[global] Instance Role_eq_dec : EqDecision Role.
Proof. solve_decision. Defined.
#[global] Instance Content_eq_dec : EqDecision Content.
Proof. solve_decision. Defined.
#[global] Instance Message_eq_dec : EqDecision Message.
Proof. solve_decision. Defined.

Definition valid_identity (i : option string) : bool :=
  match i with
  | Some s => negb (String.eqb s "")
  | None => false
  end.

Definition valid_message (m : Message) : Prop :=
  valid_identity (identity m) = true.

(** The identities of a log, in log order. *)
Definition identities (log : list Message) : list (option string) :=
  identity <$> log.

(** ** The message-log reducer *)

(** The entry that results from replacing the content and role of [e] by
    those of [m]. *)
Definition replace_entry (e m : Message) : Message :=
  {| identity := identity e; role := role m; content := content m |}.

Definition same_identity (m e : Message) : Prop := identity e = identity m.

#[global] Instance same_identity_dec m e : Decision (same_identity m e).
Proof. unfold same_identity. apply _. Defined.

(** One incoming message: replace in place the entry with its identity,
    otherwise append. *)
Definition merge_one (log : list Message) (m : Message) : list Message :=
  match list_find (same_identity m) log with
  | Some (k, e) => <[k := replace_entry e m]> log
  | None => log ++ [m]
  end.

(** Modelled from the spec: the reducer [add_messages], attached to
    [supervisor_messages] (and, through [MessagesState], to [messages]), is
    imported from [langgraph.graph.message] and its body is missing from the
    source.  It follows the merge contract of the message log: the incoming
    messages are taken in order; a message with a missing or empty identity
    is rejected with a validation error; a message whose identity matches an
    entry replaces that entry in place; any other message is appended. *)
Fixpoint add_messages (log incoming : list Message) : result (list Message) :=
  match incoming with
  | [] => Ok log
  | m :: rest =>
      if valid_identity (identity m)
      then add_messages (merge_one log m) rest
      else Err (ValidationError [InvalidIdentity])
  end.

(** ** The reducer as the library implements it *)

(** The position that the identity index of the reducer holds for [i]: the
    index is built over the whole log, a later entry overwriting an earlier
    one with the same identity, so it points to the last such entry. *)
Fixpoint last_index (i : option string) (merged : list Message) : option nat :=
  match merged with
  | [] => None
  | e :: rest =>
      match last_index i rest with
      | Some k => Some (S k)
      | None => if decide (identity e = i) then Some 0 else None
      end
  end.

(** One incoming message: stored at the position the index holds for its
    identity, otherwise appended.  No identity is checked. *)
Definition merge_message (merged : list Message) (m : Message) : list Message :=
  match last_index (identity m) merged with
  | Some k => <[k := m]> merged
  | None => merged ++ [m]
  end.

Definition with_identity (m : Message) (i : string) : Message :=
  {| identity := Some i; role := role m; content := content m |}.

Definition has_identity (m : Message) : Prop := is_Some (identity m).

Section LibraryReducer.

(** The identifiers that [uuid.uuid4] hands out, in call order. *)
Variable uuid4 : nat -> string.

(** Every message without an identity is given the next identifier; [n]
    counts the identifiers handed out so far. *)
Fixpoint assign_ids (n : nat) (ms : list Message) : list Message * nat :=
  match ms with
  | [] => ([], n)
  | m :: rest =>
      match identity m with
      | Some _ =>
          let '(rest', n') := assign_ids n rest in (m :: rest', n')
      | None =>
          let '(rest', n') := assign_ids (S n) rest in
          (with_identity m (uuid4 n) :: rest', n')
      end
  end.

(** [add_messages] as [langgraph.graph.message] implements it, on the
    messages of the data model (no removal messages): missing identities
    are assigned, in the log first and then in the incoming messages, and
    the incoming messages are merged in order.  Nothing is validated and
    no message is rejected; the empty string is an identity like any
    other. *)
Definition langgraph_add_messages (log incoming : list Message) : list Message :=
  let '(merged, n) := assign_ids 0 log in
  let '(incoming', _) := assign_ids n incoming in
  foldl merge_message merged incoming'.

End LibraryReducer.

(** ** The text-accumulator reducer *)

(** [operator.add] on two lists of [str]: a new list, the left operand
    followed by the right one. *)
Definition operator_add (existing contribution : list string) : list string :=
  existing ++ contribution.

(** ** The state aggregate *)

(** [AgentState]: the inherited [messages] of [MessagesState] and the five
    fields of the class.  [research_brief] and [final_report] are absent
    ([None]) until a stage writes them; [raw_notes] and [notes] default to
    the empty list. *)
Record AgentState := mkAgentState {
  messages : list Message;
  research_brief : option string;
  supervisor_messages : list Message;
  raw_notes : list string;
  notes : list string;
  final_report : option string
}.

Definition initial_state (conversation : list Message) : AgentState :=
  {| messages := conversation; research_brief := None;
     supervisor_messages := []; raw_notes := []; notes := [];
     final_report := None |}.

(** A write to one field of the state, as a stage returns it. *)
Inductive FieldUpdate :=
  | U_messages (ms : list Message)
  | U_research_brief (brief : option string)
  | U_supervisor_messages (ms : list Message)
  | U_raw_notes (ns : list string)
  | U_notes (ns : list string)
  | U_final_report (report : string).

(** A field annotated with a reducer is combined with the written value by
    that reducer; a field without one is overwritten. *)
Definition apply_update (s : AgentState) (u : FieldUpdate) : result AgentState :=
  match u with
  | U_messages ms =>
      log ← add_messages (messages s) ms;
      Ok {| messages := log; research_brief := research_brief s;
            supervisor_messages := supervisor_messages s;
            raw_notes := raw_notes s; notes := notes s;
            final_report := final_report s |}
  | U_research_brief brief =>
      Ok {| messages := messages s; research_brief := brief;
            supervisor_messages := supervisor_messages s;
            raw_notes := raw_notes s; notes := notes s;
            final_report := final_report s |}
  | U_supervisor_messages ms =>
      log ← add_messages (supervisor_messages s) ms;
      Ok {| messages := messages s; research_brief := research_brief s;
            supervisor_messages := log;
            raw_notes := raw_notes s; notes := notes s;
            final_report := final_report s |}
  | U_raw_notes ns =>
      Ok {| messages := messages s; research_brief := research_brief s;
            supervisor_messages := supervisor_messages s;
            raw_notes := operator_add (raw_notes s) ns; notes := notes s;
            final_report := final_report s |}
  | U_notes ns =>
      Ok {| messages := messages s; research_brief := research_brief s;
            supervisor_messages := supervisor_messages s;
            raw_notes := raw_notes s; notes := operator_add (notes s) ns;
            final_report := final_report s |}
  | U_final_report report =>
      Ok {| messages := messages s; research_brief := research_brief s;
            supervisor_messages := supervisor_messages s;
            raw_notes := raw_notes s; notes := notes s;
            final_report := Some report |}
  end.

(** The writes of one stage, applied in order; the first error aborts. *)
Fixpoint apply_updates (s : AgentState) (us : list FieldUpdate) : result AgentState :=
  match us with
  | [] => Ok s
  | u :: rest => s' ← apply_update s u; apply_updates s' rest
  end.

(** ** Runs of writes *)

(** The fields of the state, and the field a write goes to. *)
Inductive Field :=
  | F_messages
  | F_research_brief
  | F_supervisor_messages
  | F_raw_notes
  | F_notes
  | F_final_report.

#[global] Instance Field_eq_dec : EqDecision Field.
Proof. solve_decision. Defined.

Definition field_of (u : FieldUpdate) : Field :=
  match u with
  | U_messages _ => F_messages
  | U_research_brief _ => F_research_brief
  | U_supervisor_messages _ => F_supervisor_messages
  | U_raw_notes _ => F_raw_notes
  | U_notes _ => F_notes
  | U_final_report _ => F_final_report
  end.

(** The writes that go through [add_messages], the one fallible reducer. *)
Definition writes_message_log (u : FieldUpdate) : bool :=
  match u with
  | U_messages _ | U_supervisor_messages _ => true
  | _ => false
  end.

(** Everything a run of writes contributes to [raw_notes], in run order. *)
Fixpoint raw_contributions (us : list FieldUpdate) : list string :=
  match us with
  | [] => []
  | U_raw_notes ns :: rest => ns ++ raw_contributions rest
  | _ :: rest => raw_contributions rest
  end.

(** Everything a run of writes contributes to [notes], in run order. *)
Fixpoint notes_contributions (us : list FieldUpdate) : list string :=
  match us with
  | [] => []
  | U_notes ns :: rest => ns ++ notes_contributions rest
  | _ :: rest => notes_contributions rest
  end.

(** The report of the last write to [final_report] in a run, if any. *)
Fixpoint last_final_report (us : list FieldUpdate) : option string :=
  match us with
  | [] => None
  | u :: rest =>
      match last_final_report rest with
      | Some r => Some r
      | None => match u with U_final_report r => Some r | _ => None end
      end
  end.

(** The value of the last write to [research_brief] in a run, if any. *)
Fixpoint last_research_brief (us : list FieldUpdate) : option (option string) :=
  match us with
  | [] => None
  | u :: rest =>
      match last_research_brief rest with
      | Some b => Some b
      | None => match u with U_research_brief b => Some b | _ => None end
      end
  end.

(** ** Structured output schemas *)

(** A value offered for a field of a decision object. *)
Inductive value :=
  | VNone
  | VBool (b : bool)
  | VInt (z : Z)
  | VStr (s : string).

Module Schema.

Record ClarifyWithUser := mkClarifyWithUser {
  need_clarification : bool;
  question : string;
  verification : string
}.

Record ResearchQuestion := mkResearchQuestion {
  research_brief : string
}.

(** A field declared [str] with no default: required, and the value offered
    has to be a string.  No constraint on its length is declared. *)
Definition str_field (o : gmap string value) (name : string) : result string :=
  match o !! name with
  | None => Err (ValidationError [Missing name])
  | Some (VStr s) => Ok s
  | Some _ => Err (ValidationError [StringType name])
  end.

Section Validation.

(** Which values the validation library coerces to a [bool] is its own
    table, not part of the source: a parameter here. *)
Variable coerce_bool : value -> option bool.

(** A field declared [bool] with no default: required. *)
Definition bool_field (o : gmap string value) (name : string) : result bool :=
  match o !! name with
  | None => Err (ValidationError [Missing name])
  | Some v =>
      match coerce_bool v with
      | Some b => Ok b
      | None => Err (ValidationError [BoolParsing name])
      end
  end.

(** Validation of a decision object against [ClarifyWithUser]: every field
    is checked and the issues of all of them are reported together. *)
Definition validate_ClarifyWithUser (o : gmap string value) : result ClarifyWithUser :=
  match bool_field o "need_clarification",
        str_field o "question",
        str_field o "verification" with
  | Ok b, Ok q, Ok v =>
      Ok {| need_clarification := b; question := q; verification := v |}
  | rb, rq, rv =>
      Err (ValidationError (issues_of rb ++ issues_of rq ++ issues_of rv))
  end.

End Validation.

(** Validation of a decision object against [ResearchQuestion]. *)
Definition validate_ResearchQuestion (o : gmap string value) : result ResearchQuestion :=
  match str_field o "research_brief" with
  | Ok b => Ok {| research_brief := b |}
  | Err e => Err e
  end.

(** The coercion that accepts the two booleans only. *)
Definition strict_bool (v : value) : option bool :=
  match v with VBool b => Some b | _ => None end.

(** The names of the fields that each schema declares. *)
Definition ClarifyWithUser_fields : list string :=
  ["need_clarification"; "question"; "verification"].

Definition ResearchQuestion_fields : list string := ["research_brief"].

(** [model_dump], which both schemas inherit from [BaseModel]: the
    dictionary of the declared fields. *)
Definition dump_ClarifyWithUser (r : ClarifyWithUser) : gmap string value :=
  {[ "need_clarification" := VBool (need_clarification r);
     "question" := VStr (question r);
     "verification" := VStr (verification r) ]}.

Definition dump_ResearchQuestion (r : ResearchQuestion) : gmap string value :=
  {[ "research_brief" := VStr (research_brief r) ]}.

End Schema.

(** ** Sample data *)

Module Samples.
Definition mA := mkMessage (Some "a") user (Text "hello").
Definition mB := mkMessage (Some "b") assistant (Text "hi").
Definition mA' := mkMessage (Some "a") assistant (Text "edited").
Definition mC := mkMessage (Some "c") tool (Structured [("k", "v")]).
Definition empty_brief : gmap string value :=
  {[ "research_brief" := VStr "" ]}.
Definition full_decision : gmap string value :=
  {[ "need_clarification" := VBool false;
     "question" := VStr "";
     "verification" := VStr "Starting research." ]}.
End Samples.

(** * Properties *)

Example add_messages_sample :
  add_messages [Samples.mA; Samples.mB] [Samples.mA'; Samples.mC] =
  Ok [Samples.mA'; Samples.mB; Samples.mC].
Proof. reflexivity. Qed.

Example validate_sample :
  Schema.validate_ClarifyWithUser Schema.strict_bool Samples.full_decision =
  Ok (Schema.mkClarifyWithUser false "" "Starting research.").
Proof. vm_compute. reflexivity. Qed.

Example validate_sample_missing :
  Schema.validate_ClarifyWithUser Schema.strict_bool (delete "question" Samples.full_decision) =
  Err (ValidationError [Missing "question"]).
Proof. vm_compute. reflexivity. Qed.

Implicit Types (log incoming : list Message) (m : Message).

(** Resolve the validity test that [add_messages] makes on a message known
    to be valid. *)
Ltac accept_valid H :=
  unfold valid_message in H; cbn [add_messages]; rewrite H.

(** ** The message-log reducer, one message at a time *)

Lemma replace_entry_same e m :
  identity e = identity m -> replace_entry e m = m.
Proof.
  destruct m as [i r c]. unfold replace_entry. simpl. intros ->. reflexivity.
Qed.

Lemma merge_one_nil m : merge_one [] m = [m].
Proof. reflexivity. Qed.

Lemma merge_one_cons e log m :
  merge_one (e :: log) m =
  if decide (identity e = identity m) then m :: log else e :: merge_one log m.
Proof.
  unfold merge_one. simpl.
  destruct (decide (same_identity m e)) as [Heq | Hne];
    destruct (decide (identity e = identity m)) as [Heq' | Hne'];
    try (exfalso; auto; fail).
  - simpl. f_equal. apply replace_entry_same. exact Heq'.
  - destruct (list_find (same_identity m) log) as [[k e'] |]; reflexivity.
Qed.

Lemma merge_one_fresh log m :
  identity m ∉ identities log -> merge_one log m = log ++ [m].
Proof.
  induction log as [| e log IH]; intros Hnotin.
  - reflexivity.
  - rewrite merge_one_cons. unfold identities in *. simpl in Hnotin.
    apply not_elem_of_cons in Hnotin as [Hne Hrest].
    destruct (decide (identity e = identity m)) as [Heq | _].
    + congruence.
    + simpl. f_equal. apply IH. exact Hrest.
Qed.

Lemma merge_one_first log m k e :
  log !! k = Some e ->
  identity e = identity m ->
  (forall j e', j < k -> log !! j = Some e' -> identity e' <> identity m) ->
  merge_one log m = <[k := m]> log.
Proof.
  revert k. induction log as [| x log IH]; intros k Hk Hid Hfirst.
  - discriminate.
  - rewrite merge_one_cons. destruct k as [| k]; simpl in *.
    + injection Hk as ->. rewrite decide_True by exact Hid. reflexivity.
    + rewrite decide_False.
      * f_equal. apply IH; [exact Hk | exact Hid |].
        intros j e' Hj He'. apply (Hfirst (S j) e'); [lia | exact He'].
      * apply (Hfirst 0 x); [lia | reflexivity].
Qed.

Lemma identities_cons e log :
  identities (e :: log) = identity e :: identities log.
Proof. reflexivity. Qed.

Lemma identities_app log1 log2 :
  identities (log1 ++ log2) = identities log1 ++ identities log2.
Proof. unfold identities. apply fmap_app. Qed.

Lemma merge_one_identities log m :
  identities (merge_one log m) =
  if decide (identity m ∈ identities log) then identities log
  else identities log ++ [identity m].
Proof.
  induction log as [| e log IH].
  - rewrite decide_False; [reflexivity | apply not_elem_of_nil].
  - rewrite merge_one_cons, !identities_cons.
    destruct (decide (identity e = identity m)) as [Heq | Hne].
    + rewrite decide_True by (rewrite Heq; apply list_elem_of_here).
      rewrite identities_cons. congruence.
    + rewrite identities_cons, IH.
      destruct (decide (identity m ∈ identities log)) as [Hin | Hnotin].
      * rewrite decide_True by (apply list_elem_of_further; exact Hin). reflexivity.
      * rewrite decide_False; [reflexivity |].
        intros [Heq | Hin]%elem_of_cons; [congruence | contradiction].
Qed.

Lemma merge_one_length_present log m :
  identity m ∈ identities log -> length (merge_one log m) = length log.
Proof.
  intros Hin.
  rewrite <- (length_fmap identity (merge_one log m)).
  fold (identities (merge_one log m)). rewrite merge_one_identities.
  rewrite decide_True by exact Hin. unfold identities. apply length_fmap.
Qed.

Lemma merge_one_elem_identity log m :
  identity m ∈ identities (merge_one log m).
Proof.
  rewrite merge_one_identities.
  destruct (decide (identity m ∈ identities log)) as [Hin | _].
  - exact Hin.
  - apply elem_of_app. right. apply list_elem_of_here.
Qed.

Lemma merge_one_identities_mono log m i :
  i ∈ identities log -> i ∈ identities (merge_one log m).
Proof.
  intros Hin. rewrite merge_one_identities.
  destruct (decide (identity m ∈ identities log)); [exact Hin |].
  apply elem_of_app. left. exact Hin.
Qed.

Lemma merge_one_NoDup log m :
  NoDup (identities log) -> NoDup (identities (merge_one log m)).
Proof.
  intros Hnd. rewrite merge_one_identities.
  destruct (decide (identity m ∈ identities log)) as [_ | Hnotin]; [exact Hnd |].
  apply NoDup_app. split; [exact Hnd |]. split.
  - intros i Hi Hi'. apply list_elem_of_singleton in Hi'. subst i. contradiction.
  - apply NoDup_singleton.
Qed.

(** Two messages with one identity: the later one wins. *)
Lemma merge_one_same log m n :
  identity m = identity n ->
  merge_one (merge_one log m) n = merge_one log n.
Proof.
  intros Hmn. induction log as [| e log IH].
  - rewrite !merge_one_nil, merge_one_cons.
    rewrite decide_True by exact Hmn. reflexivity.
  - rewrite !(merge_one_cons e).
    destruct (decide (identity e = identity m)) as [Hem | Hem].
    + rewrite decide_True by congruence.
      rewrite merge_one_cons, decide_True by exact Hmn. reflexivity.
    + rewrite decide_False by congruence.
      rewrite merge_one_cons, decide_False by congruence.
      f_equal. exact IH.
Qed.

(** Two messages with different identities commute as soon as the first one
    updates an entry of the log. *)
Lemma merge_one_comm log m n :
  identity m <> identity n ->
  identity m ∈ identities log ->
  merge_one (merge_one log m) n = merge_one (merge_one log n) m.
Proof.
  intros Hmn. induction log as [| e log IH]; intros Hin.
  - apply elem_of_nil in Hin. contradiction.
  - rewrite !(merge_one_cons e).
    destruct (decide (identity e = identity m)) as [Hem | Hem];
      destruct (decide (identity e = identity n)) as [Hen | Hen].
    + congruence.
    + rewrite !merge_one_cons.
      rewrite decide_False by exact Hmn. rewrite decide_True by exact Hem.
      reflexivity.
    + rewrite !merge_one_cons.
      rewrite decide_True by exact Hen. rewrite decide_False by congruence.
      reflexivity.
    + rewrite !merge_one_cons.
      rewrite decide_False by exact Hen. rewrite decide_False by exact Hem.
      f_equal. apply IH.
      rewrite identities_cons in Hin.
      apply elem_of_cons in Hin as [Heq | Hin]; [congruence | exact Hin].
Qed.

Lemma merge_one_app_l log1 log2 m :
  identity m ∈ identities log1 ->
  merge_one (log1 ++ log2) m = merge_one log1 m ++ log2.
Proof.
  induction log1 as [| e log1 IH]; intros Hin.
  - apply elem_of_nil in Hin. contradiction.
  - rewrite <- app_comm_cons, !merge_one_cons.
    destruct (decide (identity e = identity m)) as [Hem | Hem].
    + reflexivity.
    + rewrite <- app_comm_cons. f_equal. apply IH.
      rewrite identities_cons in Hin.
      apply elem_of_cons in Hin as [Heq | Hin]; [congruence | exact Hin].
Qed.

(** ** Whole contributions *)

Lemma foldl_merge_one_mono incoming log i :
  i ∈ identities log -> i ∈ identities (foldl merge_one log incoming).
Proof.
  revert log. induction incoming as [| m rest IH]; intros log Hin.
  - exact Hin.
  - simpl. apply IH. apply merge_one_identities_mono. exact Hin.
Qed.

Lemma foldl_merge_one_covers incoming log m :
  m ∈ incoming -> identity m ∈ identities (foldl merge_one log incoming).
Proof.
  revert log. induction incoming as [| n rest IH]; intros log Hin.
  - apply elem_of_nil in Hin. contradiction.
  - simpl. apply elem_of_cons in Hin as [-> | Hin].
    + apply foldl_merge_one_mono. apply merge_one_elem_identity.
    + apply IH. exact Hin.
Qed.

Lemma foldl_merge_one_NoDup incoming log :
  NoDup (identities log) -> NoDup (identities (foldl merge_one log incoming)).
Proof.
  revert log. induction incoming as [| m rest IH]; intros log Hnd.
  - exact Hnd.
  - simpl. apply IH. apply merge_one_NoDup. exact Hnd.
Qed.

Lemma foldl_merge_one_app_l incoming log1 log2 :
  Forall (fun m => identity m ∈ identities log1) incoming ->
  foldl merge_one (log1 ++ log2) incoming = foldl merge_one log1 incoming ++ log2.
Proof.
  revert log1. induction incoming as [| m rest IH]; intros log1 Hall.
  - reflexivity.
  - apply Forall_cons in Hall as [Hm Hrest]. simpl.
    rewrite merge_one_app_l by exact Hm. apply IH.
    eapply Forall_impl; [exact Hrest |].
    intros n Hn. apply merge_one_identities_mono. exact Hn.
Qed.

(** Updating with [m] before a run of updates is invisible once [m] is
    applied again after the run. *)
Lemma merge_one_foldl_absorb incoming log m :
  identity m ∈ identities log ->
  merge_one (foldl merge_one (merge_one log m) incoming) m =
  merge_one (foldl merge_one log incoming) m.
Proof.
  revert log. induction incoming as [| n rest IH]; intros log Hin.
  - simpl. apply merge_one_same. reflexivity.
  - simpl. destruct (decide (identity m = identity n)) as [Heq | Hne].
    + rewrite merge_one_same by exact Heq. reflexivity.
    + rewrite merge_one_comm by assumption.
      apply IH. apply merge_one_identities_mono. exact Hin.
Qed.

Lemma foldl_merge_one_idem incoming log :
  foldl merge_one (foldl merge_one log incoming) incoming =
  foldl merge_one log incoming.
Proof.
  induction incoming as [| m rest IH] using rev_ind.
  - reflexivity.
  - rewrite !foldl_snoc.
    set (log' := foldl merge_one log rest) in *.
    destruct (decide (identity m ∈ identities log')) as [Hin | Hnotin].
    + rewrite merge_one_foldl_absorb by exact Hin. rewrite IH. reflexivity.
    + rewrite (merge_one_fresh log' m) by exact Hnotin.
      rewrite foldl_merge_one_app_l.
      * rewrite IH. rewrite <- (merge_one_fresh log' m) by exact Hnotin.
        apply merge_one_same. reflexivity.
      * apply Forall_forall. intros n Hn.
        apply foldl_merge_one_covers. exact Hn.
Qed.

Lemma add_messages_valid log incoming :
  Forall valid_message incoming ->
  add_messages log incoming = Ok (foldl merge_one log incoming).
Proof.
  revert log. induction incoming as [| m rest IH]; intros log Hall.
  - reflexivity.
  - apply Forall_cons in Hall as [Hm Hrest].
    accept_valid Hm. apply IH. exact Hrest.
Qed.

Lemma add_messages_Ok_inv log incoming log' :
  add_messages log incoming = Ok log' ->
  Forall valid_message incoming /\ log' = foldl merge_one log incoming.
Proof.
  revert log. induction incoming as [| m rest IH]; intros log Hok; simpl in Hok.
  - injection Hok as <-. split; [constructor | reflexivity].
  - destruct (valid_identity (identity m)) eqn:Hm; [| discriminate].
    destruct (IH _ Hok) as [Hrest ->].
    split; [constructor; assumption | reflexivity].
Qed.

Lemma first_entry_with_identity log m :
  identity m ∈ identities log ->
  exists k e, log !! k = Some e /\ identity e = identity m /\
    forall j e', j < k -> log !! j = Some e' -> identity e' <> identity m.
Proof.
  intros Hin. unfold identities in Hin.
  apply list_elem_of_fmap in Hin as (e0 & Hid & He0).
  destruct (list_find_elem_of (same_identity m) log e0 He0) as [[k e] Hfind].
  { unfold same_identity. congruence. }
  apply list_find_Some in Hfind as (Hk & He & Hfirst).
  exists k, e. split; [exact Hk |]. split; [exact He |].
  intros j e' Hj He'. exact (Hfirst j e' He' Hj).
Qed.

Lemma filter_eq_absent (log : list Message) m :
  identity m ∉ identities log -> filter (fun e => e = m) log = [].
Proof.
  induction log as [| e log IH]; intros Hnotin.
  - reflexivity.
  - rewrite identities_cons in Hnotin.
    apply not_elem_of_cons in Hnotin as [Hne Hrest].
    rewrite filter_cons_False by congruence. apply IH. exact Hrest.
Qed.

(** ** The properties of the message log *)

(** C1: the message-log merge takes the incoming messages in order, the
    head first: a message whose identity matches an entry replaces that
    entry in place, at its position and without changing the length of the
    log; a message with a new identity is appended at the end; the
    remaining messages are then merged into the log so obtained. *)
Theorem add_messages_in_order (log : list Message) (m : Message) (rest : list Message) :
  valid_message m ->
  add_messages log [] = Ok log /\
  (forall k e,
      log !! k = Some e ->
      identity e = identity m ->
      (forall j e', j < k -> log !! j = Some e' -> identity e' <> identity m) ->
      add_messages log (m :: rest) = add_messages (<[k := m]> log) rest /\
      <[k := m]> log !! k = Some m /\
      length (<[k := m]> log) = length log /\
      forall j, j <> k -> <[k := m]> log !! j = log !! j) /\
  (identity m ∉ identities log ->
      add_messages log (m :: rest) = add_messages (log ++ [m]) rest) /\
  (Forall valid_message rest ->
      add_messages log (m :: rest) = Ok (foldl merge_one log (m :: rest))).
Proof.
  intros Hm. split; [reflexivity |]. split; [| split].
  - intros k e Hk Hid Hfirst. split; [| split; [| split]].
    + accept_valid Hm.
      rewrite (merge_one_first log m k e) by assumption. reflexivity.
    + apply list_lookup_insert_eq. eapply lookup_lt_Some. exact Hk.
    + apply length_insert.
    + intros j Hj. apply list_lookup_insert_ne. congruence.
  - intros Hnotin. accept_valid Hm.
    rewrite merge_one_fresh by exact Hnotin. reflexivity.
  - intros Hrest. apply add_messages_valid. constructor; assumption.
Qed.

Lemma add_messages_in_order_witness :
  add_messages [Samples.mA; Samples.mB] [Samples.mA'; Samples.mC] =
  add_messages [Samples.mA'; Samples.mB] [Samples.mC].
Proof.
  destruct (add_messages_in_order [Samples.mA; Samples.mB] Samples.mA' [Samples.mC] eq_refl)
    as [_ [Hreplace _]].
  destruct (Hreplace 0 Samples.mA eq_refl eq_refl) as [Heq _].
  - intros j e' Hj. lia.
  - exact Heq.
Defined.

(** C3: merging a message whose identity is already in the log updates the
    matching entry in place, the length of the log and the position of the
    entry unchanged; and merging an incoming sequence a second time gives
    the log that merging it once gave. *)
Theorem add_messages_idempotent (log : list Message) :
  (forall m,
      valid_message m ->
      identity m ∈ identities log ->
      exists k e log',
        log !! k = Some e /\ identity e = identity m /\
        add_messages log [m] = Ok log' /\
        length log' = length log /\
        log' !! k = Some m /\
        forall j, j <> k -> log' !! j = log !! j) /\
  (forall incoming log1,
      add_messages log incoming = Ok log1 ->
      add_messages log1 incoming = Ok log1).
Proof.
  split.
  - intros m Hm Hin.
    destruct (first_entry_with_identity log m Hin) as (k & e & Hk & Hid & Hfirst).
    exists k, e, (<[k := m]> log).
    split; [exact Hk |]. split; [exact Hid |]. split; [| split; [| split]].
    + accept_valid Hm.
      rewrite (merge_one_first log m k e) by assumption. reflexivity.
    + apply length_insert.
    + apply list_lookup_insert_eq. eapply lookup_lt_Some. exact Hk.
    + intros j Hj. apply list_lookup_insert_ne. congruence.
  - intros incoming log1 Hok.
    apply add_messages_Ok_inv in Hok as [Hvalid ->].
    rewrite add_messages_valid by exact Hvalid.
    f_equal. apply foldl_merge_one_idem.
Qed.

Lemma add_messages_idempotent_witness :
  add_messages [Samples.mA'; Samples.mB; Samples.mC] [Samples.mA'; Samples.mC] =
  Ok [Samples.mA'; Samples.mB; Samples.mC].
Proof.
  destruct (add_messages_idempotent [Samples.mA; Samples.mB]) as [_ Hagain].
  apply (Hagain [Samples.mA'; Samples.mC] [Samples.mA'; Samples.mB; Samples.mC]).
  reflexivity.
Defined.

(** C4: two contributions of one message each, with distinct identities
    that are new to the log, merged in either order: the log holds both
    messages exactly once, in the order in which the two merges were
    applied. *)
Theorem add_messages_either_order (log : list Message) (msgA msgB : Message) :
  valid_message msgA ->
  valid_message msgB ->
  identity msgA <> identity msgB ->
  identity msgA ∉ identities log ->
  identity msgB ∉ identities log ->
  (log1 ← add_messages log [msgA]; add_messages log1 [msgB]) = Ok (log ++ [msgA; msgB]) /\
  (log2 ← add_messages log [msgB]; add_messages log2 [msgA]) = Ok (log ++ [msgB; msgA]) /\
  length (filter (fun e => e = msgA) (log ++ [msgA; msgB])) = 1 /\
  length (filter (fun e => e = msgB) (log ++ [msgA; msgB])) = 1 /\
  length (filter (fun e => e = msgA) (log ++ [msgB; msgA])) = 1 /\
  length (filter (fun e => e = msgB) (log ++ [msgB; msgA])) = 1.
Proof.
  intros HA HB Hne HAnew HBnew.
  assert (Hstep : forall l x y,
    valid_message x -> valid_message y -> identity x <> identity y ->
    identity x ∉ identities l -> identity y ∉ identities l ->
    (l1 ← add_messages l [x]; add_messages l1 [y]) = Ok (l ++ [x; y])).
  { intros l x y Hx Hy Hxy Hxnew Hynew. simpl.
    unfold valid_message in Hx, Hy. rewrite Hx. simpl. rewrite Hy.
    rewrite (merge_one_fresh l x) by exact Hxnew.
    rewrite merge_one_fresh.
    - rewrite <- app_assoc. reflexivity.
    - rewrite identities_app. intros [Hin | Hin]%elem_of_app.
      + contradiction.
      + apply list_elem_of_singleton in Hin. congruence. }
  assert (HAB : msgB <> msgA) by congruence.
  assert (HBA : msgA <> msgB) by congruence.
  split; [apply Hstep; assumption |].
  split; [apply Hstep; try assumption; congruence |].
  rewrite !filter_app, !(filter_eq_absent log) by assumption.
  simpl. repeat split.
  - rewrite filter_cons_True, filter_cons_False by congruence. reflexivity.
  - rewrite filter_cons_False, filter_cons_True by congruence. reflexivity.
  - rewrite filter_cons_False, filter_cons_True by congruence. reflexivity.
  - rewrite filter_cons_True, filter_cons_False by congruence. reflexivity.
Qed.

Lemma add_messages_either_order_witness :
  (log1 ← add_messages [Samples.mC] [Samples.mA]; add_messages log1 [Samples.mB]) =
    Ok ([Samples.mC] ++ [Samples.mA; Samples.mB]) /\
  (log2 ← add_messages [Samples.mC] [Samples.mB]; add_messages log2 [Samples.mA]) =
    Ok ([Samples.mC] ++ [Samples.mB; Samples.mA]).
Proof.
  destruct (add_messages_either_order [Samples.mC] Samples.mA Samples.mB)
    as (H1 & H2 & _).
  - reflexivity.
  - reflexivity.
  - discriminate.
  - intros Hin%list_elem_of_singleton. discriminate.
  - intros Hin%list_elem_of_singleton. discriminate.
  - split; assumption.
Defined.

(** C5: pairwise distinct identities are an invariant of the message log:
    from a log whose identities are pairwise distinct, every merge that
    returns a log returns one whose identities are pairwise distinct, and
    the merge does return a log when every incoming identity is valid. *)
Theorem add_messages_unique_identities (log incoming : list Message) :
  NoDup (identities log) ->
  (forall log', add_messages log incoming = Ok log' -> NoDup (identities log')) /\
  (Forall valid_message incoming ->
     exists log', add_messages log incoming = Ok log' /\ NoDup (identities log')).
Proof.
  intros Hnd. split.
  - intros log' Hok. apply add_messages_Ok_inv in Hok as [_ ->].
    apply foldl_merge_one_NoDup. exact Hnd.
  - intros Hvalid. exists (foldl merge_one log incoming).
    split; [apply add_messages_valid; exact Hvalid |].
    apply foldl_merge_one_NoDup. exact Hnd.
Qed.

Lemma add_messages_unique_identities_witness :
  exists log',
    add_messages [Samples.mA; Samples.mB] [Samples.mC; Samples.mA'; Samples.mC] = Ok log' /\
    NoDup (identities log').
Proof.
  destruct (add_messages_unique_identities [Samples.mA; Samples.mB]
              [Samples.mC; Samples.mA'; Samples.mC]) as [_ Hex].
  - apply (NoDup_fmap_2_strong identity [Samples.mA; Samples.mB]).
    + intros x y Hx Hy Hxy.
      repeat (apply elem_of_cons in Hx as [-> | Hx]);
        repeat (apply elem_of_cons in Hy as [-> | Hy]);
        try reflexivity; try discriminate;
        try (apply elem_of_nil in Hx; contradiction);
        try (apply elem_of_nil in Hy; contradiction).
    + apply NoDup_cons. split.
      * intros Hin%list_elem_of_singleton. discriminate.
      * apply NoDup_singleton.
  - apply Hex. repeat constructor.
Defined.

(** ** The reducer of the library *)

Lemma last_index_None i log :
  last_index i log = None <-> i ∉ identities log.
Proof.
  induction log as [| e log IH].
  - split; [intros _; apply not_elem_of_nil | reflexivity].
  - rewrite identities_cons, not_elem_of_cons. cbn [last_index].
    destruct (last_index i log) as [k |].
    + split; [discriminate |]. intros [_ Hrest].
      apply IH in Hrest. discriminate.
    + destruct (decide (identity e = i)) as [Heq | Hne]; split.
      * discriminate.
      * intros [Hne _]. congruence.
      * intros _. split; [congruence | apply IH; reflexivity].
      * reflexivity.
Qed.

Lemma last_index_Some i log k :
  last_index i log = Some k <->
  exists e, log !! k = Some e /\ identity e = i /\
    forall j e', k < j -> log !! j = Some e' -> identity e' <> i.
Proof.
  revert k. induction log as [| x log IH]; intros k.
  - split; [discriminate | intros (e & He & _); discriminate].
  - cbn [last_index]. destruct (last_index i log) as [k' |] eqn:Hlast.
    + split.
      * intros [= <-]. destruct (proj1 (IH k') eq_refl) as (e & He & Hid & Hafter).
        exists e. split; [exact He |]. split; [exact Hid |].
        intros [| j] e' Hj He'; [lia |]. apply (Hafter j e'); [lia | exact He'].
      * intros (e & He & Hid & Hafter).
        destruct (proj1 (IH k') eq_refl) as (e1 & He1 & Hid1 & Hafter1).
        destruct k as [| k].
        -- exfalso. apply (Hafter (S k') e1); [lia | exact He1 | exact Hid1].
        -- f_equal. f_equal.
           destruct (Nat.lt_trichotomy k k') as [Hlt | [Heq | Hgt]]; [| exact (eq_sym Heq) |].
           ++ exfalso. apply (Hafter (S k') e1); [lia | exact He1 | exact Hid1].
           ++ exfalso. apply (Hafter1 k e); [lia | exact He | exact Hid].
    + apply last_index_None in Hlast.
      destruct (decide (identity x = i)) as [Heq | Hne]; split.
      * intros [= <-]. exists x. split; [reflexivity |]. split; [exact Heq |].
        intros [| j] e' Hj He'; [lia |]. intros Hid. apply Hlast.
        rewrite <- Hid. apply list_elem_of_fmap. exists e'.
        split; [reflexivity |]. eapply list_elem_of_lookup_2. exact He'.
      * intros (e & He & Hid & _). destruct k as [| k]; [reflexivity |].
        exfalso. apply Hlast. rewrite <- Hid. apply list_elem_of_fmap. exists e.
        split; [reflexivity |]. eapply list_elem_of_lookup_2. exact He.
      * discriminate.
      * intros (e & He & Hid & _). exfalso. destruct k as [| k].
        -- injection He as <-. contradiction.
        -- apply Hlast. rewrite <- Hid. apply list_elem_of_fmap. exists e.
           split; [reflexivity |]. eapply list_elem_of_lookup_2. exact He.
Qed.

Lemma merge_message_fresh log m :
  identity m ∉ identities log -> merge_message log m = log ++ [m].
Proof.
  intros Hnew. apply last_index_None in Hnew.
  unfold merge_message. rewrite Hnew. reflexivity.
Qed.

Lemma merge_message_last log m k e :
  log !! k = Some e ->
  identity e = identity m ->
  (forall j e', k < j -> log !! j = Some e' -> identity e' <> identity m) ->
  merge_message log m = <[k := m]> log.
Proof.
  intros Hk Hid Hafter.
  assert (Hlast : last_index (identity m) log = Some k).
  { apply last_index_Some. exists e. auto. }
  unfold merge_message. rewrite Hlast. reflexivity.
Qed.






Section LibraryReducerFacts.

Variable uuid4 : nat -> string.

Lemma assign_ids_present n ms :
  Forall has_identity ms -> assign_ids uuid4 n ms = (ms, n).
Proof.
  induction 1 as [| m rest [s Hs] _ IH]; [reflexivity |].
  cbn. rewrite Hs, IH. reflexivity.
Qed.







End LibraryReducerFacts.

Lemma merge_message_unique log m :
  NoDup (identities log) -> merge_message log m = merge_one log m.
Proof.
  intros Hnd. destruct (decide (identity m ∈ identities log)) as [Hin | Hnew].
  - destruct (first_entry_with_identity log m Hin) as (k & e & Hk & Hid & Hfirst).
    rewrite (merge_one_first log m k e Hk Hid Hfirst).
    apply (merge_message_last log m k e Hk Hid).
    intros j e' Hj He' Hid'.
    assert (Hjk : j = k); [| lia].
    apply (NoDup_lookup (identities log) j k (identity m) Hnd);
      unfold identities; rewrite list_lookup_fmap.
    + rewrite He'. cbn. congruence.
    + rewrite Hk. cbn. congruence.
  - rewrite merge_message_fresh, merge_one_fresh by exact Hnew. reflexivity.
Qed.

(** On a log whose identities are present and pairwise distinct, and for
    incoming messages whose identities are all valid, the reducer of the
    library returns the log of the merge contract. *)
Lemma add_messages_agrees_with_library (uuid4 : nat -> string) log incoming :
  Forall has_identity log ->
  NoDup (identities log) ->
  Forall valid_message incoming ->
  add_messages log incoming = Ok (langgraph_add_messages uuid4 log incoming).
Proof.
  intros Hlog Hnd Hvalid. rewrite add_messages_valid by exact Hvalid. f_equal.
  unfold langgraph_add_messages.
  rewrite (assign_ids_present uuid4 0 log Hlog).
  rewrite (assign_ids_present uuid4 0 incoming).
  - clear Hlog Hvalid. revert log Hnd.
    induction incoming as [| m rest IH]; intros log Hnd; [reflexivity |].
    cbn. rewrite merge_message_unique by exact Hnd.
    apply IH. apply merge_one_NoDup. exact Hnd.
  - eapply Forall_impl; [exact Hvalid |].
    intros m Hm. unfold valid_message in Hm. unfold has_identity.
    destruct (identity m); [eexists; reflexivity | discriminate].
Qed.




(** ** The properties of the text accumulators *)

(** C2: the accumulator merge returns the existing records followed by the
    incoming ones, in order, nothing dropped, deduplicated or moved; merging
    [a] then [b] gives [a, b] after what was there, and merging [a] twice
    gives [a, a]: the merge is not idempotent.  The state applies it to
    [raw_notes] and to [notes]. *)
Theorem operator_add_concatenates (E C : list string) (a b : string) :
  operator_add E C = E ++ C /\
  length (operator_add E C) = length E + length C /\
  take (length E) (operator_add E C) = E /\
  drop (length E) (operator_add E C) = C /\
  operator_add (operator_add [] [a]) [b] = [a; b] /\
  operator_add (operator_add E [a]) [b] = E ++ [a; b] /\
  operator_add (operator_add [] [a]) [a] = [a; a] /\
  operator_add (operator_add E [a]) [a] <> operator_add E [a] /\
  (forall s, exists s',
      apply_update s (U_raw_notes C) = Ok s' /\
      raw_notes s' = raw_notes s ++ C /\ notes s' = notes s) /\
  (forall s, exists s',
      apply_update s (U_notes C) = Ok s' /\
      notes s' = notes s ++ C /\ raw_notes s' = raw_notes s).
Proof.
  unfold operator_add. repeat split.
  - apply length_app.
  - apply take_app_length.
  - apply drop_app_length.
  - rewrite <- app_assoc. reflexivity.
  - intros Heq. apply (f_equal length) in Heq.
    rewrite !length_app in Heq. simpl in Heq. lia.
  - intros s. eexists. split; [reflexivity |]. split; reflexivity.
  - intros s. eexists. split; [reflexivity |]. split; reflexivity.
Qed.

(** C10: the empty contribution is a right identity of the accumulator
    merge, and merging two contributions one after the other is merging
    their concatenation; the same holds for the writes to [raw_notes]. *)
Theorem operator_add_monoid (E C1 C2 : list string) :
  operator_add E [] = E /\
  operator_add (operator_add E C1) C2 = operator_add E (C1 ++ C2) /\
  operator_add (operator_add E C1) C2 = operator_add E (operator_add C1 C2) /\
  (forall s, apply_update s (U_raw_notes []) = Ok s) /\
  (forall s, apply_updates s [U_raw_notes C1; U_raw_notes C2] =
             apply_updates s [U_raw_notes (C1 ++ C2)]).
Proof.
  unfold operator_add. repeat split.
  - apply app_nil_r.
  - symmetry. apply app_assoc.
  - symmetry. apply app_assoc.
  - intros [ms rb sm rn n fr]. simpl. unfold operator_add.
    rewrite app_nil_r. reflexivity.
  - intros s. simpl. unfold operator_add. simpl.
    rewrite <- app_assoc. reflexivity.
Qed.

(** ** The singleton fields of the state *)

(** C6, as stated, fails: on a state whose [notes] are empty and whose
    conversation log is empty, writing [final_report] and writing
    [research_brief] both succeed. *)
Lemma singleton_fields_unguarded :
  notes (initial_state []) = [] /\
  messages (initial_state []) = [] /\
  apply_update (initial_state []) (U_final_report "report") =
    Ok {| messages := []; research_brief := None; supervisor_messages := [];
          raw_notes := []; notes := []; final_report := Some "report" |} /\
  apply_update (initial_state []) (U_research_brief (Some "brief")) =
    Ok {| messages := []; research_brief := Some "brief"; supervisor_messages := [];
          raw_notes := []; notes := []; final_report := None |}.
Proof. repeat split. Qed.

(** C6, amended: [final_report] and [research_brief] are plain fields with
    no reducer and no guard.  Writing either always succeeds, whatever the
    other fields hold, sets the field to the written value (the last write
    wins) and leaves every other field as it was. *)
Theorem singleton_fields_overwrite (s : AgentState) :
  (forall report, exists s',
      apply_update s (U_final_report report) = Ok s' /\
      final_report s' = Some report /\
      messages s' = messages s /\ research_brief s' = research_brief s /\
      supervisor_messages s' = supervisor_messages s /\
      raw_notes s' = raw_notes s /\ notes s' = notes s) /\
  (forall brief, exists s',
      apply_update s (U_research_brief brief) = Ok s' /\
      research_brief s' = brief /\
      messages s' = messages s /\ final_report s' = final_report s /\
      supervisor_messages s' = supervisor_messages s /\
      raw_notes s' = raw_notes s /\ notes s' = notes s) /\
  (forall r1 r2,
      (s1 ← apply_update s (U_final_report r1); apply_update s1 (U_final_report r2)) =
      apply_update s (U_final_report r2)).
Proof.
  split; [| split].
  - intros report. eexists. split; [reflexivity |]. repeat split.
  - intros brief. eexists. split; [reflexivity |]. repeat split.
  - intros r1 r2. reflexivity.
Qed.

(** ** The structured output schemas *)

Lemma str_field_Ok o name s :
  Schema.str_field o name = Ok s <-> o !! name = Some (VStr s).
Proof.
  unfold Schema.str_field.
  destruct (o !! name) as [[| b | z | s'] |]; split; intros H;
    try discriminate; congruence.
Qed.

Lemma str_field_Err o name :
  (exists e, Schema.str_field o name = Err e) <->
  ~ exists s, o !! name = Some (VStr s).
Proof.
  unfold Schema.str_field.
  destruct (o !! name) as [[| b | z | s'] |]; split;
    try (intros _ [s Hs]; discriminate);
    try (intros _; eexists; reflexivity).
  - intros [e He]. discriminate.
  - intros Hno. exfalso. apply Hno. exists s'. reflexivity.
Qed.

Lemma str_field_missing o name :
  o !! name = None ->
  Schema.str_field o name = Err (ValidationError [Missing name]).
Proof. intros Hnone. unfold Schema.str_field. rewrite Hnone. reflexivity. Qed.

(** C7, as stated, fails: a decision object whose [research_brief] is the
    empty string passes the validation of [ResearchQuestion]. *)
Lemma empty_brief_accepted :
  Samples.empty_brief !! "research_brief" = Some (VStr "") /\
  Schema.validate_ResearchQuestion Samples.empty_brief =
    Ok {| Schema.research_brief := "" |}.
Proof. split; vm_compute; reflexivity. Qed.

(** C7, amended: the validation of [ResearchQuestion] fails with an error
    exactly when [research_brief] is absent or is not a string; every
    string, the empty one too, is accepted and returned as the brief. *)
Theorem validate_ResearchQuestion_spec (o : gmap string value) :
  ((exists e, Schema.validate_ResearchQuestion o = Err e) <->
   ~ exists s, o !! "research_brief" = Some (VStr s)) /\
  (forall r, Schema.validate_ResearchQuestion o = Ok r <->
             o !! "research_brief" = Some (VStr (Schema.research_brief r))) /\
  (o !! "research_brief" = None ->
   Schema.validate_ResearchQuestion o =
     Err (ValidationError [Missing "research_brief"])).
Proof.
  unfold Schema.validate_ResearchQuestion. split; [| split].
  - rewrite <- str_field_Err.
    destruct (Schema.str_field o "research_brief") as [s | e]; split.
    + intros [e' He']. discriminate.
    + intros [e' He']. discriminate.
    + intros _. exists e. reflexivity.
    + intros _. exists e. reflexivity.
  - intros [b]. simpl. rewrite <- str_field_Ok.
    destruct (Schema.str_field o "research_brief") as [s | e]; split; intros H;
      try discriminate; congruence.
  - intros Hnone. rewrite str_field_missing by exact Hnone. reflexivity.
Qed.

Lemma validate_ResearchQuestion_spec_witness :
  Schema.validate_ResearchQuestion (delete "research_brief" Samples.empty_brief) =
    Err (ValidationError [Missing "research_brief"]).
Proof.
  destruct (validate_ResearchQuestion_spec (delete "research_brief" Samples.empty_brief))
    as (_ & _ & Hmissing).
  apply Hmissing. vm_compute. reflexivity.
Defined.

(** C9: the validation of [ClarifyWithUser] succeeds only when [question]
    and [verification] are both offered as strings, whatever the value of
    [need_clarification]; a decision object that misses either field is
    rejected, and the error names the field. *)
Theorem validate_ClarifyWithUser_requires_text
    (coerce_bool : value -> option bool) (o : gmap string value) :
  (forall r, Schema.validate_ClarifyWithUser coerce_bool o = Ok r ->
     o !! "question" = Some (VStr (Schema.question r)) /\
     o !! "verification" = Some (VStr (Schema.verification r))) /\
  (o !! "question" = None ->
     exists issues, Schema.validate_ClarifyWithUser coerce_bool o = Err (ValidationError issues) /\
                    Missing "question" ∈ issues) /\
  (o !! "verification" = None ->
     exists issues, Schema.validate_ClarifyWithUser coerce_bool o = Err (ValidationError issues) /\
                    Missing "verification" ∈ issues) /\
  ((~ exists q, o !! "question" = Some (VStr q)) \/
   (~ exists v, o !! "verification" = Some (VStr v)) ->
     exists e, Schema.validate_ClarifyWithUser coerce_bool o = Err e).
Proof.
  unfold Schema.validate_ClarifyWithUser.
  split; [| split; [| split]].
  - intros r Hok.
    destruct (Schema.bool_field coerce_bool o "need_clarification") as [b | eb];
      destruct (Schema.str_field o "question") as [q | eq] eqn:Hq;
      destruct (Schema.str_field o "verification") as [v | ev] eqn:Hv;
      try discriminate.
    injection Hok as <-. simpl.
    apply str_field_Ok in Hq, Hv. split; assumption.
  - intros Hnone. rewrite (str_field_missing o "question") by exact Hnone.
    destruct (Schema.bool_field coerce_bool o "need_clarification") as [b | eb];
      destruct (Schema.str_field o "verification") as [v | ev];
      eexists; (split; [reflexivity |]);
      apply elem_of_app; right; apply elem_of_app; left; apply list_elem_of_here.
  - intros Hnone. rewrite (str_field_missing o "verification") by exact Hnone.
    destruct (Schema.bool_field coerce_bool o "need_clarification") as [b | eb];
      destruct (Schema.str_field o "question") as [q | eq];
      eexists; (split; [reflexivity |]);
      apply elem_of_app; right; apply elem_of_app; right; apply list_elem_of_here.
  - intros Hbad.
    destruct (Schema.bool_field coerce_bool o "need_clarification") as [b | eb];
      destruct (Schema.str_field o "question") as [q | eq] eqn:Hq;
      destruct (Schema.str_field o "verification") as [v | ev] eqn:Hv;
      try (eexists; reflexivity).
    apply str_field_Ok in Hq, Hv. exfalso.
    destruct Hbad as [Hno | Hno]; apply Hno; eexists; eassumption.
Qed.

Lemma validate_ClarifyWithUser_requires_text_witness :
  exists issues,
    Schema.validate_ClarifyWithUser Schema.strict_bool
      (delete "verification" Samples.full_decision) = Err (ValidationError issues) /\
    Missing "verification" ∈ issues.
Proof.
  destruct (validate_ClarifyWithUser_requires_text Schema.strict_bool
              (delete "verification" Samples.full_decision)) as (_ & _ & Hmissing & _).
  apply Hmissing. vm_compute. reflexivity.
Defined.

(** * Further properties of the state and of the schemas *)

(** ** One write *)

(** Take apart a successful write [H : apply_update s u = Ok s']. *)
Ltac invert_update H :=
  match type of H with
  | apply_update ?s ?u = Ok _ =>
      destruct u; unfold apply_update, mbind, result_bind in H;
      try match type of H with
          | context [add_messages ?l ?ms] =>
              destruct (add_messages l ms) eqn:?
          end;
      try discriminate H;
      injection H as <-
  end.

Lemma apply_update_raw_notes s u s' :
  apply_update s u = Ok s' ->
  raw_notes s' = raw_notes s ++ raw_contributions [u].
Proof.
  intros H. invert_update H; cbn; unfold operator_add;
    rewrite ?app_nil_r; reflexivity.
Qed.

Lemma apply_update_notes s u s' :
  apply_update s u = Ok s' ->
  notes s' = notes s ++ notes_contributions [u].
Proof.
  intros H. invert_update H; cbn; unfold operator_add;
    rewrite ?app_nil_r; reflexivity.
Qed.

Lemma apply_updates_cons_Ok s u rest s' :
  apply_updates s (u :: rest) = Ok s' ->
  exists s1, apply_update s u = Ok s1 /\ apply_updates s1 rest = Ok s'.
Proof.
  cbn. unfold mbind, result_bind.
  destruct (apply_update s u) as [s1 | e]; [| discriminate].
  intros H. exists s1. split; [reflexivity | exact H].
Qed.

Lemma raw_contributions_cons u rest :
  raw_contributions (u :: rest) = raw_contributions [u] ++ raw_contributions rest.
Proof. destruct u; cbn; rewrite ?app_nil_r; reflexivity. Qed.

Lemma notes_contributions_cons u rest :
  notes_contributions (u :: rest) = notes_contributions [u] ++ notes_contributions rest.
Proof. destruct u; cbn; rewrite ?app_nil_r; reflexivity. Qed.

(** X4: a write changes the field it goes to and no other: after a
    successful write, every field other than the target holds what it held
    before. *)
Theorem apply_update_frame (s : AgentState) (u : FieldUpdate) (s' : AgentState) :
  apply_update s u = Ok s' ->
  (field_of u <> F_messages -> messages s' = messages s) /\
  (field_of u <> F_research_brief -> research_brief s' = research_brief s) /\
  (field_of u <> F_supervisor_messages ->
     supervisor_messages s' = supervisor_messages s) /\
  (field_of u <> F_raw_notes -> raw_notes s' = raw_notes s) /\
  (field_of u <> F_notes -> notes s' = notes s) /\
  (field_of u <> F_final_report -> final_report s' = final_report s).
Proof.
  intros H. invert_update H; cbn; repeat split; intros Hne;
    try reflexivity; exfalso; apply Hne; reflexivity.
Qed.

Lemma apply_update_frame_witness :
  exists s',
    apply_update (initial_state [Samples.mA]) (U_notes ["n"]) = Ok s' /\
    messages s' = [Samples.mA] /\ raw_notes s' = [] /\ final_report s' = None.
Proof.
  eexists. split; [reflexivity |].
  destruct (apply_update_frame (initial_state [Samples.mA]) (U_notes ["n"]) _ eq_refl)
    as (Hm & _ & _ & Hr & _ & Hf).
  split; [apply Hm; discriminate |].
  split; [apply Hr; discriminate | apply Hf; discriminate].
Defined.

(** ** Runs of writes *)

(** X5: the accumulators are append-only over a run of writes: after a
    successful run, [raw_notes] is what it was followed by every
    contribution to it, in run order, whatever writes to other fields are
    interleaved; likewise [notes].  From the initial state, whose
    accumulators default to the empty list, each accumulator is exactly its
    contributions. *)
Theorem apply_updates_accumulate (s : AgentState) (us : list FieldUpdate) (s' : AgentState) :
  apply_updates s us = Ok s' ->
  raw_notes s' = raw_notes s ++ raw_contributions us /\
  notes s' = notes s ++ notes_contributions us /\
  raw_notes s `prefix_of` raw_notes s' /\
  notes s `prefix_of` notes s' /\
  (forall conversation, s = initial_state conversation ->
     raw_notes s' = raw_contributions us /\ notes s' = notes_contributions us).
Proof.
  intros Hrun.
  assert (Hacc : raw_notes s' = raw_notes s ++ raw_contributions us /\
                 notes s' = notes s ++ notes_contributions us).
  { revert s Hrun. induction us as [| u rest IH]; intros s Hrun.
    - cbn in Hrun. injection Hrun as <-. cbn. rewrite !app_nil_r. split; reflexivity.
    - apply apply_updates_cons_Ok in Hrun as (s1 & Hstep & Hrest).
      destruct (IH s1 Hrest) as [Hraw Hnotes].
      rewrite Hraw, Hnotes.
      rewrite (apply_update_raw_notes s u s1 Hstep).
      rewrite (apply_update_notes s u s1 Hstep).
      rewrite (raw_contributions_cons u rest), (notes_contributions_cons u rest).
      rewrite <- !app_assoc. split; reflexivity. }
  destruct Hacc as [Hraw Hnotes].
  split; [exact Hraw |]. split; [exact Hnotes |].
  split; [rewrite Hraw; apply prefix_app_r; reflexivity |].
  split; [rewrite Hnotes; apply prefix_app_r; reflexivity |].
  intros conversation ->. rewrite Hraw, Hnotes. split; reflexivity.
Qed.

Lemma apply_updates_accumulate_witness :
  exists s',
    apply_updates (initial_state [])
      [U_raw_notes ["r1"]; U_final_report "f"; U_notes ["n1"]; U_raw_notes ["r2"; "r1"]] = Ok s' /\
    raw_notes s' = ["r1"; "r2"; "r1"] /\ notes s' = ["n1"].
Proof.
  eexists. split; [reflexivity |].
  destruct (apply_updates_accumulate (initial_state [])
              [U_raw_notes ["r1"]; U_final_report "f"; U_notes ["n1"]; U_raw_notes ["r2"; "r1"]]
              _ eq_refl) as (Hraw & Hnotes & _).
  split; [exact Hraw | exact Hnotes].
Defined.

Lemma apply_update_final_report s u s' :
  apply_update s u = Ok s' ->
  final_report s' =
    match u with U_final_report r => Some r | _ => final_report s end.
Proof. intros H. invert_update H; reflexivity. Qed.

Lemma apply_update_research_brief s u s' :
  apply_update s u = Ok s' ->
  research_brief s' =
    match u with U_research_brief b => b | _ => research_brief s end.
Proof. intros H. invert_update H; reflexivity. Qed.

(** X6: the singleton fields keep the last value written: after a
    successful run of writes, [final_report] holds the report of the last
    write to it, or what it held before when the run has none; likewise
    [research_brief]. *)
Theorem apply_updates_last_write (s : AgentState) (us : list FieldUpdate) (s' : AgentState) :
  apply_updates s us = Ok s' ->
  final_report s' =
    match last_final_report us with
    | Some r => Some r
    | None => final_report s
    end /\
  research_brief s' =
    match last_research_brief us with
    | Some b => b
    | None => research_brief s
    end.
Proof.
  revert s. induction us as [| u rest IH]; intros s Hrun.
  - cbn in Hrun. injection Hrun as <-. split; reflexivity.
  - apply apply_updates_cons_Ok in Hrun as (s1 & Hstep & Hrest).
    destruct (IH s1 Hrest) as [Hfinal Hbrief].
    rewrite Hfinal, Hbrief. cbn [last_final_report last_research_brief].
    rewrite (apply_update_final_report s u s1 Hstep).
    rewrite (apply_update_research_brief s u s1 Hstep).
    split.
    + destruct (last_final_report rest); [reflexivity |].
      destruct u; reflexivity.
    + destruct (last_research_brief rest); [reflexivity |].
      destruct u; reflexivity.
Qed.

Lemma apply_updates_last_write_witness :
  exists s',
    apply_updates (initial_state [])
      [U_final_report "draft"; U_raw_notes ["r"]; U_final_report "final"] = Ok s' /\
    final_report s' = Some "final" /\ research_brief s' = None.
Proof.
  eexists. split; [reflexivity |].
  apply (apply_updates_last_write (initial_state [])
           [U_final_report "draft"; U_raw_notes ["r"]; U_final_report "final"]).
  reflexivity.
Defined.

(** X7: two writes to different fields, at most one of them to a message
    log, commute: applied in either order they give the same state, or fail
    with the same error. *)
Theorem apply_update_commute (s : AgentState) (u1 u2 : FieldUpdate) :
  field_of u1 <> field_of u2 ->
  writes_message_log u1 = false \/ writes_message_log u2 = false ->
  (s1 ← apply_update s u1; apply_update s1 u2) =
  (s2 ← apply_update s u2; apply_update s2 u1).
Proof.
  intros Hfields Hplain.
  destruct u1, u2; cbn in Hfields, Hplain;
    try (exfalso; apply Hfields; reflexivity);
    try (destruct Hplain; discriminate);
    cbn; unfold mbind, result_bind; cbn;
    try match goal with
        | |- context [add_messages ?l ?ms] => destruct (add_messages l ms)
        end;
    reflexivity.
Qed.

Lemma apply_update_commute_witness :
  (s1 ← apply_update (initial_state []) (U_raw_notes ["r"]);
   apply_update s1 (U_messages [Samples.mA])) =
  (s2 ← apply_update (initial_state []) (U_messages [Samples.mA]);
   apply_update s2 (U_raw_notes ["r"])).
Proof.
  apply (apply_update_commute (initial_state []) (U_raw_notes ["r"])
           (U_messages [Samples.mA])).
  - discriminate.
  - left. reflexivity.
Defined.

(** X8: two contributions to one accumulator do not commute: with two
    different records, merging [a] then [b] and merging [b] then [a] give
    different accumulators, and the two runs of writes to [raw_notes], or to
    [notes], give different states. *)
Theorem operator_add_order_matters (E : list string) (a b : string) (s : AgentState) :
  a <> b ->
  operator_add (operator_add E [a]) [b] <> operator_add (operator_add E [b]) [a] /\
  apply_updates s [U_raw_notes [a]; U_raw_notes [b]] <>
    apply_updates s [U_raw_notes [b]; U_raw_notes [a]] /\
  apply_updates s [U_notes [a]; U_notes [b]] <>
    apply_updates s [U_notes [b]; U_notes [a]].
Proof.
  intros Hab.
  assert (Hneq : forall l : list string, (l ++ [a]) ++ [b] <> (l ++ [b]) ++ [a]).
  { intros l Heq. rewrite <- !app_assoc in Heq.
    apply app_inv_head in Heq. injection Heq as Heq _. contradiction. }
  split; [apply Hneq |]. split.
  - cbn. unfold operator_add. intros Heq. injection Heq as Heq.
    exact (Hneq _ Heq).
  - cbn. unfold operator_add. intros Heq. injection Heq as Heq.
    exact (Hneq _ Heq).
Qed.

Lemma operator_add_order_matters_witness :
  operator_add (operator_add ["x"] ["a"]) ["b"] <>
  operator_add (operator_add ["x"] ["b"]) ["a"].
Proof.
  apply (operator_add_order_matters ["x"] "a" "b" (initial_state [])).
  discriminate.
Defined.

(** ** The schemas *)

Lemma bool_field_Ok coerce_bool o name b :
  Schema.bool_field coerce_bool o name = Ok b <->
  exists v, o !! name = Some v /\ coerce_bool v = Some b.
Proof.
  unfold Schema.bool_field. destruct (o !! name) as [v |].
  - destruct (coerce_bool v) as [b' |] eqn:Hv; split.
    + intros H. injection H as <-. exists v. split; [reflexivity | exact Hv].
    + intros (v' & Hv' & Hb). injection Hv' as <-. congruence.
    + discriminate.
    + intros (v' & Hv' & Hb). injection Hv' as <-. congruence.
  - split; [discriminate | intros (v & Hv & _); discriminate].
Qed.

Lemma bool_field_missing coerce_bool o name :
  o !! name = None ->
  Schema.bool_field coerce_bool o name = Err (ValidationError [Missing name]).
Proof. intros Hnone. unfold Schema.bool_field. rewrite Hnone. reflexivity. Qed.

(** X1: the validation of [ClarifyWithUser] succeeds exactly when
    [need_clarification] is offered with a value that coerces to a boolean
    and [question] and [verification] are offered as strings, and the
    object it returns holds exactly those three values; a decision object
    without [need_clarification] is rejected with an error that names the
    field. *)
Theorem validate_ClarifyWithUser_spec
    (coerce_bool : value -> option bool) (o : gmap string value) :
  (forall r,
     Schema.validate_ClarifyWithUser coerce_bool o = Ok r <->
     (exists v, o !! "need_clarification" = Some v /\
                coerce_bool v = Some (Schema.need_clarification r)) /\
     o !! "question" = Some (VStr (Schema.question r)) /\
     o !! "verification" = Some (VStr (Schema.verification r))) /\
  (o !! "need_clarification" = None ->
   exists issues,
     Schema.validate_ClarifyWithUser coerce_bool o = Err (ValidationError issues) /\
     Missing "need_clarification" ∈ issues).
Proof.
  split.
  - intros [b q v]. cbn [Schema.need_clarification Schema.question Schema.verification].
    rewrite <- bool_field_Ok, <- !str_field_Ok.
    unfold Schema.validate_ClarifyWithUser.
    destruct (Schema.bool_field coerce_bool o "need_clarification") as [b' | eb];
      destruct (Schema.str_field o "question") as [q' | eq];
      destruct (Schema.str_field o "verification") as [v' | ev];
      split; intros H;
      try discriminate H;
      try (destruct H as (H1 & H2 & H3); discriminate).
    + injection H as <- <- <-. repeat split.
    + destruct H as (H1 & H2 & H3). congruence.
  - intros Hnone. unfold Schema.validate_ClarifyWithUser.
    rewrite (bool_field_missing coerce_bool o "need_clarification") by exact Hnone.
    destruct (Schema.str_field o "question") as [q | eq];
      destruct (Schema.str_field o "verification") as [v | ev];
      eexists; (split; [reflexivity |]);
      apply elem_of_app; left; apply list_elem_of_here.
Qed.

Lemma validate_ClarifyWithUser_spec_witness :
  exists issues,
    Schema.validate_ClarifyWithUser Schema.strict_bool
      (delete "need_clarification" Samples.full_decision) = Err (ValidationError issues) /\
    Missing "need_clarification" ∈ issues.
Proof.
  destruct (validate_ClarifyWithUser_spec Schema.strict_bool
              (delete "need_clarification" Samples.full_decision)) as [_ Hmissing].
  apply Hmissing. vm_compute. reflexivity.
Defined.

(** X2: validation looks at the declared fields only: two decision objects
    that agree on the fields a schema declares get the same result, so
    adding or changing an undeclared key never changes it. *)
Theorem validation_ignores_undeclared_keys
    (coerce_bool : value -> option bool) (o o' : gmap string value) :
  ((forall k, k ∈ Schema.ClarifyWithUser_fields -> o !! k = o' !! k) ->
     Schema.validate_ClarifyWithUser coerce_bool o =
     Schema.validate_ClarifyWithUser coerce_bool o') /\
  ((forall k, k ∈ Schema.ResearchQuestion_fields -> o !! k = o' !! k) ->
     Schema.validate_ResearchQuestion o = Schema.validate_ResearchQuestion o') /\
  (forall k v, k ∉ Schema.ClarifyWithUser_fields ->
     Schema.validate_ClarifyWithUser coerce_bool (<[k := v]> o) =
     Schema.validate_ClarifyWithUser coerce_bool o) /\
  (forall k v, k ∉ Schema.ResearchQuestion_fields ->
     Schema.validate_ResearchQuestion (<[k := v]> o) =
     Schema.validate_ResearchQuestion o).
Proof.
  assert (Hcwu : forall o1 o2 : gmap string value,
    (forall k, k ∈ Schema.ClarifyWithUser_fields -> o1 !! k = o2 !! k) ->
    Schema.validate_ClarifyWithUser coerce_bool o1 =
    Schema.validate_ClarifyWithUser coerce_bool o2).
  { intros o1 o2 Hagree.
    unfold Schema.validate_ClarifyWithUser, Schema.bool_field, Schema.str_field.
    rewrite (Hagree "need_clarification"), (Hagree "question"), (Hagree "verification");
      [reflexivity | ..]; unfold Schema.ClarifyWithUser_fields;
      repeat first [apply list_elem_of_here | apply list_elem_of_further]. }
  assert (Hrq : forall o1 o2 : gmap string value,
    (forall k, k ∈ Schema.ResearchQuestion_fields -> o1 !! k = o2 !! k) ->
    Schema.validate_ResearchQuestion o1 = Schema.validate_ResearchQuestion o2).
  { intros o1 o2 Hagree.
    unfold Schema.validate_ResearchQuestion, Schema.str_field.
    rewrite (Hagree "research_brief"); [reflexivity |]. apply list_elem_of_here. }
  split; [apply Hcwu |]. split; [apply Hrq |]. split.
  - intros k v Hk. apply Hcwu. intros k' Hk'.
    apply lookup_insert_ne. intros ->. contradiction.
  - intros k v Hk. apply Hrq. intros k' Hk'.
    apply lookup_insert_ne. intros ->. contradiction.
Qed.

Lemma validation_ignores_undeclared_keys_witness :
  Schema.validate_ResearchQuestion (<["comment" := VInt 3]> Samples.empty_brief) =
  Schema.validate_ResearchQuestion Samples.empty_brief.
Proof.
  destruct (validation_ignores_undeclared_keys Schema.strict_bool
              Samples.empty_brief Samples.empty_brief) as (_ & _ & _ & Hextra).
  apply Hextra. intros Hin%list_elem_of_singleton. discriminate.
Defined.

Lemma dump_ClarifyWithUser_lookup r :
  Schema.dump_ClarifyWithUser r !! "need_clarification" =
    Some (VBool (Schema.need_clarification r)) /\
  Schema.dump_ClarifyWithUser r !! "question" = Some (VStr (Schema.question r)) /\
  Schema.dump_ClarifyWithUser r !! "verification" =
    Some (VStr (Schema.verification r)).
Proof.
  unfold Schema.dump_ClarifyWithUser. repeat split; by simplify_map_eq.
Qed.

(** X3: dumping a validated object and validating the dump gives the object
    back, provided the coercion of the boolean field takes each boolean to
    itself: every combination of field values is accepted, an empty
    question beside [need_clarification = True] and an empty brief too. *)
Theorem dump_validate_round_trip (coerce_bool : value -> option bool) :
  (forall b, coerce_bool (VBool b) = Some b) ->
  (forall r, Schema.validate_ClarifyWithUser coerce_bool (Schema.dump_ClarifyWithUser r) = Ok r) /\
  (forall r, Schema.validate_ResearchQuestion (Schema.dump_ResearchQuestion r) = Ok r).
Proof.
  intros Hbool. split.
  - intros r. destruct (dump_ClarifyWithUser_lookup r) as (Hn & Hq & Hv).
    unfold Schema.validate_ClarifyWithUser, Schema.bool_field, Schema.str_field.
    rewrite Hn, Hq, Hv, Hbool. destruct r; reflexivity.
  - intros r. unfold Schema.validate_ResearchQuestion, Schema.str_field,
      Schema.dump_ResearchQuestion.
    rewrite lookup_singleton_eq. destruct r; reflexivity.
Qed.

Lemma dump_validate_round_trip_witness :
  Schema.validate_ClarifyWithUser Schema.strict_bool
    (Schema.dump_ClarifyWithUser (Schema.mkClarifyWithUser true "" "ok")) =
  Ok (Schema.mkClarifyWithUser true "" "ok").
Proof.
  destruct (dump_validate_round_trip Schema.strict_bool) as [Hround _].
  - intros b. reflexivity.
  - apply Hround.
Defined.
